(** * Bracket validator (src/bracketex/solver.cpp)

    A shallow embedding of the stack-based bracket checker and the proofs of
    its specification.  The embedding starts after the two extractions
    [cin >> length] and [cin >> brackets]: the program is a function of the
    integer [length] and of the characters of [brackets].

    Control that reaches the end of [bracket_type] or [bracket_state] without
    a [return], and an access [brackets[index]] past the terminator of the
    string, have no defined behaviour in C++; both are kept apart from the
    two printed answers as [Undefined]. *)

From Stdlib Require Import ZArith List Bool Ascii String Lia.
Import ListNotations.
Local Open Scope char_scope.
Local Open Scope Z_scope.

(** ** Types and constants of the source *)

(** [typedef long long int ll;]: [length] and [index] are 64-bit signed
    integers, modelled in [Z]. *)
Definition ll_min : Z := - 2 ^ 63.
Definition ll_max : Z := 2 ^ 63 - 1.

(** [typedef uint8_t bracket_t;] with its three [#define]d values. *)
Definition bracket_t : Type := Z.
Definition CURLY : bracket_t := 0.
Definition SQUARE : bracket_t := 1.
Definition ROUND : bracket_t := 2.

(** [typedef bool state_t;] *)
Definition state_t : Type := bool.
Definition OPEN : state_t := true.
Definition CLOSE : state_t := false.

(** [std::stack<bracket_t>]: the head of the list is [top()]. *)
Definition stack : Type := list bracket_t.

(** ** The two classifiers

    [None] is the path that leaves the function without a [return]. *)

Definition bracket_type (bracket : ascii) : option bracket_t :=
  if Ascii.eqb bracket "}" || Ascii.eqb bracket "{" then Some CURLY
  else if Ascii.eqb bracket "]" || Ascii.eqb bracket "[" then Some SQUARE
  else if Ascii.eqb bracket ")" || Ascii.eqb bracket "(" then Some ROUND
  else None.

Definition bracket_state (bracket : ascii) : option state_t :=
  if Ascii.eqb bracket "}" || Ascii.eqb bracket ")" || Ascii.eqb bracket "]"
  then Some CLOSE
  else if Ascii.eqb bracket "{" || Ascii.eqb bracket "(" || Ascii.eqb bracket "["
  then Some OPEN
  else None.

(** ** The program *)

(** What the program writes to standard output before [return 0]. *)
Inductive verdict : Type := Valid | Invalid.

Definition text (v : verdict) : string :=
  match v with
  | Valid => String.append "Valid" (String "010" EmptyString)
  | Invalid => String.append "Invalid" (String "010" EmptyString)
  end.

Inductive outcome : Type :=
| Printed (v : verdict)
| Undefined.

(** [brackets[index]]: a character of the string, the terminator ['\0'] at
    [index == brackets.size()], nothing defined beyond. *)
Definition char_at (brackets : list ascii) (index : Z) : option ascii :=
  if index <? 0 then None
  else match nth_error brackets (Z.to_nat index) with
       | Some bracket => Some bracket
       | None =>
           if index =? Z.of_nat (List.length brackets) then Some zero else None
       end.

(** How one pass through the loop body ends: at the closing brace of the
    body, at one of the two [return 0] after [cout << "Invalid\n"], or
    nowhere defined. *)
Inductive flow : Type :=
| Continue (open_brackets : stack)
| Exit (v : verdict)
| Undef.

(** Lines 64-81: the body once [bracket] has been read. *)
Definition on_bracket (open_brackets : stack) (bracket : ascii) : flow :=
  match bracket_state bracket, bracket_type bracket with
  | Some state, Some type =>
      if Bool.eqb state OPEN then Continue (type :: open_brackets)
      else if Bool.eqb state CLOSE then
        match open_brackets with
        | [] => Exit Invalid
        | deepest_open :: below =>
            if negb (type =? deepest_open) then Exit Invalid
            else Continue below
        end
      else Continue open_brackets
  | _, _ => Undef
  end.

(** Lines 63-81. *)
Definition loop_body (brackets : list ascii) (index : Z) (open_brackets : stack)
  : flow :=
  match char_at brackets index with
  | Some bracket => on_bracket open_brackets bracket
  | None => Undef
  end.

(** The program counter is either at the loop test with the two live
    variables, or past a [return 0]. *)
Inductive config : Type :=
| Running (index : Z) (open_brackets : stack)
| Halted (out : outcome).

Section Run.

Variable length : Z.
Variable brackets : list ascii.

(** One evaluation of [index < length] and what follows it: the body and
    [index++], or lines 84-90. *)
Definition step (c : config) : config :=
  match c with
  | Running index open_brackets =>
      if index <? length then
        match loop_body brackets index open_brackets with
        | Continue open_brackets' => Running (index + 1) open_brackets'
        | Exit v => Halted (Printed v)
        | Undef => Halted Undefined
        end
      else
        match open_brackets with
        | [] => Halted (Printed Valid)
        | _ :: _ => Halted (Printed Invalid)
        end
  | Halted out => Halted out
  end.

(** [stack<bracket_t> open_brackets;] and [ll index = 0]. *)
Definition start : config := Running 0 [].

Definition state_after (n : nat) : config := Nat.iter n step start.

(** The indices at which the next step evaluates [brackets[index]]: the body
    runs, and reads one character, when the loop test succeeds. *)
Definition reads (c : config) : list Z :=
  match c with
  | Running index _ => if index <? length then [index] else []
  | Halted _ => []
  end.

(** The indices read during the first [n] steps, in order. *)
Fixpoint examined_in (n : nat) (c : config) : list Z :=
  match n with
  | O => []
  | S n' => reads c ++ examined_in n' (step c)
  end.

Definition fuel : nat := S (Z.to_nat length).

(** The whole of [main]; [None] would be a run that has not returned after
    [fuel] loop tests. *)
Definition main : option outcome :=
  match state_after fuel with
  | Halted out => Some out
  | Running _ _ => None
  end.

Definition examined : list Z := examined_in fuel start.

End Run.

Definition chars (s : string) : list ascii := list_ascii_of_string s.

(** ** Notions of the specification *)

(** Bracket Type, as the specification enumerates it. *)
Inductive kind : Type := Curly | Square | Round.

Definition code (k : kind) : bracket_t :=
  match k with
  | Curly => CURLY
  | Square => SQUARE
  | Round => ROUND
  end.

(** The glyph of a type and a role: the pairs [{}], [[]] and [()]. *)
Definition glyph (k : kind) (role : state_t) : ascii :=
  match k, role with
  | Curly, true => "{"
  | Curly, false => "}"
  | Square, true => "["
  | Square, false => "]"
  | Round, true => "("
  | Round, false => ")"
  end.

Definition opener (k : kind) : ascii := glyph k OPEN.
Definition closer (k : kind) : ascii := glyph k CLOSE.

Definition glyphs : list ascii := ["{"; "}"; "["; "]"; "("; ")"].

Definition bracket_glyph (c : ascii) : bool := existsb (Ascii.eqb c) glyphs.

(** The input of the specification: [length] is the number of characters
    and every character is one of the six glyphs. *)
Definition bracket_input (length : Z) (brackets : list ascii) : Prop :=
  length = Z.of_nat (List.length brackets)
  /\ forallb bracket_glyph brackets = true.

(** Balanced sequences: the empty one, a balanced one between an opener and
    the closer of the same type, and two balanced ones side by side. *)
Inductive balanced : list ascii -> Prop :=
| balanced_nil : balanced []
| balanced_wrap (k : kind) (s : list ascii) :
    balanced s -> balanced (opener k :: s ++ [closer k])
| balanced_app (s1 s2 : list ascii) :
    balanced s1 -> balanced s2 -> balanced (s1 ++ s2).

(** [unclosed p ks]: the brackets of [p] that are open and not yet closed
    have the types [ks], the innermost (opened last) first.  Every such
    bracket is followed by a balanced stretch, and so is the start. *)
Inductive unclosed : list ascii -> list kind -> Prop :=
| unclosed_none (s : list ascii) : balanced s -> unclosed s []
| unclosed_open (p : list ascii) (ks : list kind) (k : kind) (s : list ascii) :
    unclosed p ks -> balanced s -> unclosed (p ++ opener k :: s) (k :: ks).

(** How often a character occurs in a string, and a type in the stack. *)
Definition occurrences (c : ascii) (s : list ascii) : nat :=
  List.length (filter (Ascii.eqb c) s).

Definition entries (type : bracket_t) (open_brackets : stack) : nat :=
  List.length (filter (Z.eqb type) open_brackets).

(** The string as [brackets[index]] sees it: its characters and then the
    terminator. *)
Definition terminated (brackets : list ascii) : list ascii :=
  brackets ++ [zero].

(** ** A full-scan reference

    It follows the words of the specification for a checker that does not
    stop early: every character is processed, a closer that finds the stack
    empty or topped by another type is recorded in [mismatch], and the
    verdict is given once, after the last character.  What such a checker
    does with its stack at a mismatch is left open by the specification and
    is the parameter [recover]. *)
Fixpoint full_scan (recover : stack -> bracket_t -> stack)
  (brackets : list ascii) (open_brackets : stack) (mismatch : bool) : outcome :=
  match brackets with
  | [] =>
      if mismatch then Printed Invalid
      else match open_brackets with
           | [] => Printed Valid
           | _ :: _ => Printed Invalid
           end
  | bracket :: rest =>
      match bracket_state bracket, bracket_type bracket with
      | Some state, Some type =>
          if state then full_scan recover rest (type :: open_brackets) mismatch
          else match open_brackets with
               | [] => full_scan recover rest (recover open_brackets type) true
               | top :: below =>
                   if type =? top then full_scan recover rest below mismatch
                   else full_scan recover rest (recover open_brackets type) true
               end
      | _, _ => Undefined
      end
  end.

Definition full_scan_reference (recover : stack -> bracket_t -> stack)
  (brackets : list ascii) : outcome :=
  full_scan recover brackets [] false.

(** Two ways to go on after a mismatch: leave the stack, or drop its top. *)
Definition keep_stack (open_brackets : stack) (type : bracket_t) : stack :=
  open_brackets.

Definition drop_top (open_brackets : stack) (type : bracket_t) : stack :=
  tl open_brackets.

(** ** Proof devices *)

(** The loop body applied to the characters of [s] in turn, stopping at the
    first pass that does not reach the end of the body. *)
Fixpoint walk (s : list ascii) (open_brackets : stack) : flow :=
  match s with
  | [] => Continue open_brackets
  | bracket :: rest =>
      match on_bracket open_brackets bracket with
      | Continue open_brackets' => walk rest open_brackets'
      | Exit v => Exit v
      | Undef => Undef
      end
  end.

(** The configuration in which [index] passes of the body leave the
    program. *)
Definition config_of (index : Z) (f : flow) : config :=
  match f with
  | Continue open_brackets => Running index open_brackets
  | Exit v => Halted (Printed v)
  | Undef => Halted Undefined
  end.

(** Lines 84-90 after a scan that ended as [f]. *)
Definition answer (f : flow) : outcome :=
  match f with
  | Continue [] => Printed Valid
  | Continue (_ :: _) => Printed Invalid
  | Exit v => Printed v
  | Undef => Undefined
  end.

(** * Proofs *)

(** ** Runs on concrete inputs *)

Example run_nested :
  main 8 (chars "{[()()]}") = Some (Printed Valid).
Proof. reflexivity. Qed.

Example run_mismatch :
  main 2 (chars "(]") = Some (Printed Invalid).
Proof. reflexivity. Qed.

Example run_lone_closer :
  main 1 (chars ")") = Some (Printed Invalid)
  /\ examined 3 (chars ")()") = [0].
Proof. split; reflexivity. Qed.

Example run_crossed :
  main 3 (chars "([)") = Some (Printed Invalid)
  /\ main 2 (chars "([") = Some (Printed Invalid).
Proof. split; reflexivity. Qed.

Example full_scan_runs :
  full_scan_reference keep_stack (chars "{[()()]}") = Printed Valid
  /\ full_scan_reference keep_stack (chars ")(") = Printed Invalid
  /\ full_scan_reference drop_top (chars "(])") = Printed Invalid.
Proof. repeat split; reflexivity. Qed.

(** The two printed lines differ, so the output tells the verdict. *)
Lemma text_injective (v1 v2 : verdict) : text v1 = text v2 -> v1 = v2.
Proof. destruct v1, v2; intros H; try reflexivity; discriminate H. Qed.

Example run_not_a_bracket :
  main 1 (chars "a") = Some Undefined /\ main 2 (chars "(") = Some Undefined.
Proof. split; reflexivity. Qed.

(** ** The classifiers *)

Lemma classify_glyph (k : kind) (role : state_t) :
  bracket_type (glyph k role) = Some (code k)
  /\ bracket_state (glyph k role) = Some role.
Proof. destruct k, role; split; reflexivity. Qed.

Lemma bracket_glyph_inv (c : ascii) :
  bracket_glyph c = true -> exists k role, c = glyph k role.
Proof.
  unfold bracket_glyph, glyphs; simpl.
  destruct (Ascii.eqb_spec c "{") as [->|_]; [exists Curly, OPEN; reflexivity|].
  destruct (Ascii.eqb_spec c "}") as [->|_]; [exists Curly, CLOSE; reflexivity|].
  destruct (Ascii.eqb_spec c "[") as [->|_]; [exists Square, OPEN; reflexivity|].
  destruct (Ascii.eqb_spec c "]") as [->|_]; [exists Square, CLOSE; reflexivity|].
  destruct (Ascii.eqb_spec c "(") as [->|_]; [exists Round, OPEN; reflexivity|].
  destruct (Ascii.eqb_spec c ")") as [->|_]; [exists Round, CLOSE; reflexivity|].
  discriminate.
Qed.

Lemma glyph_is_bracket_glyph (k : kind) (role : state_t) :
  bracket_glyph (glyph k role) = true.
Proof. destruct k, role; reflexivity. Qed.

Lemma code_inj (k1 k2 : kind) : code k1 = code k2 -> k1 = k2.
Proof. destruct k1, k2; intros H; try reflexivity; discriminate H. Qed.

Lemma code_eqb (k1 k2 : kind) : (code k1 =? code k2) = true <-> k1 = k2.
Proof.
  rewrite Z.eqb_eq. split; [apply code_inj | intros ->; reflexivity].
Qed.

(** Outside the six glyphs both classifiers leave without a [return]. *)
Lemma classifiers_fall_through (c : ascii) :
  bracket_glyph c = false ->
  bracket_type c = None /\ bracket_state c = None.
Proof.
  unfold bracket_glyph, glyphs, bracket_type, bracket_state; simpl.
  destruct (Ascii.eqb c "{"), (Ascii.eqb c "}"), (Ascii.eqb c "["),
    (Ascii.eqb c "]"), (Ascii.eqb c "("), (Ascii.eqb c ")");
    simpl; intros H; try discriminate H; split; reflexivity.
Qed.

Lemma bracket_state_some (c : ascii) (role : state_t) :
  bracket_state c = Some role -> exists k, c = glyph k role.
Proof.
  intros H. destruct (bracket_glyph c) eqn:G.
  - destruct (bracket_glyph_inv c G) as (k & r & ->).
    destruct (classify_glyph k r) as [_ E]. rewrite E in H.
    injection H as ->. exists k; reflexivity.
  - destruct (classifiers_fall_through c G) as [_ E]. congruence.
Qed.

(** C9. On each of the six bracket glyphs both classifiers return: the type
    is that of the glyph's pair and the role is Open for the left glyph of
    the pair and Close for the right one, so the path without a [return] is
    not taken. *)
Theorem classifiers_defined_on_glyphs (bracket : ascii) :
  bracket_glyph bracket = true ->
  exists k role,
    bracket = glyph k role
    /\ bracket_type bracket = Some (code k)
    /\ bracket_state bracket = Some role.
Proof.
  intros G. destruct (bracket_glyph_inv bracket G) as (k & role & ->).
  exists k, role. destruct (classify_glyph k role) as [T S].
  split; [reflexivity | split; assumption].
Qed.

Lemma classifiers_defined_on_glyphs_witness :
  exists k role,
    "]" = glyph k role
    /\ bracket_type "]" = Some (code k)
    /\ bracket_state "]" = Some role.
Proof. apply (classifiers_defined_on_glyphs "]"). reflexivity. Defined.

(** The table of the six glyphs, entry by entry. *)
Lemma classifier_table :
  (bracket_type "{" = Some CURLY /\ bracket_state "{" = Some OPEN)
  /\ (bracket_type "}" = Some CURLY /\ bracket_state "}" = Some CLOSE)
  /\ (bracket_type "[" = Some SQUARE /\ bracket_state "[" = Some OPEN)
  /\ (bracket_type "]" = Some SQUARE /\ bracket_state "]" = Some CLOSE)
  /\ (bracket_type "(" = Some ROUND /\ bracket_state "(" = Some OPEN)
  /\ (bracket_type ")" = Some ROUND /\ bracket_state ")" = Some CLOSE).
Proof. repeat split; reflexivity. Qed.

(** ** The loop body on a glyph *)

Lemma on_bracket_opener (open_brackets : stack) (k : kind) :
  on_bracket open_brackets (opener k) = Continue (code k :: open_brackets).
Proof. destruct k; reflexivity. Qed.

Lemma on_bracket_closer (open_brackets : stack) (k : kind) :
  on_bracket open_brackets (closer k) =
  match open_brackets with
  | [] => Exit Invalid
  | top :: below => if code k =? top then Continue below else Exit Invalid
  end.
Proof.
  unfold on_bracket, closer. destruct (classify_glyph k CLOSE) as [T S].
  rewrite S, T. simpl. destruct open_brackets as [|top below]; [reflexivity|].
  destruct (code k =? top); reflexivity.
Qed.

Lemma on_bracket_glyph_defined (open_brackets : stack) (c : ascii) :
  bracket_glyph c = true -> on_bracket open_brackets c <> Undef.
Proof.
  intros G. destruct (bracket_glyph_inv c G) as (k & [|] & ->).
  - change (glyph k true) with (opener k). rewrite on_bracket_opener. discriminate.
  - change (glyph k false) with (closer k). rewrite on_bracket_closer.
    destruct open_brackets as [|top below]; [discriminate|].
    destruct (code k =? top); discriminate.
Qed.

Lemma on_bracket_exit (open_brackets : stack) (c : ascii) (v : verdict) :
  on_bracket open_brackets c = Exit v -> v = Invalid.
Proof.
  unfold on_bracket.
  destruct (bracket_state c) as [state|]; [|discriminate].
  destruct (bracket_type c) as [type|]; [|discriminate].
  destruct state; simpl; [discriminate|].
  destruct open_brackets as [|top below]; [congruence|].
  destruct (type =? top); simpl; [discriminate | congruence].
Qed.

Lemma on_bracket_continue (open_brackets open_brackets' : stack) (c : ascii) :
  on_bracket open_brackets c = Continue open_brackets' ->
  exists k,
    (c = opener k /\ open_brackets' = code k :: open_brackets)
    \/ (c = closer k /\ open_brackets = code k :: open_brackets').
Proof.
  intros H. destruct (bracket_glyph c) eqn:G.
  - destruct (bracket_glyph_inv c G) as (k & [|] & ->); exists k.
    + left. change (glyph k true) with (opener k) in *.
      rewrite on_bracket_opener in H. split; congruence.
    + right. change (glyph k false) with (closer k) in *.
      rewrite on_bracket_closer in H.
      destruct open_brackets as [|top below]; [discriminate|].
      destruct (Z.eqb_spec (code k) top); [|discriminate].
      split; congruence.
  - destruct (classifiers_fall_through c G) as [T S].
    unfold on_bracket in H. rewrite S in H. discriminate.
Qed.

(** ** The scan as a walk over a list *)

Lemma walk_app (s1 s2 : list ascii) (open_brackets : stack) :
  walk (s1 ++ s2) open_brackets =
  match walk s1 open_brackets with
  | Continue open_brackets' => walk s2 open_brackets'
  | Exit v => Exit v
  | Undef => Undef
  end.
Proof.
  revert open_brackets. induction s1 as [|c s1 IH]; intros stk; simpl.
  - reflexivity.
  - destruct (on_bracket stk c); auto.
Qed.

Lemma walk_snoc (s : list ascii) (c : ascii) (open_brackets : stack) :
  walk (s ++ [c]) open_brackets =
  match walk s open_brackets with
  | Continue open_brackets' => on_bracket open_brackets' c
  | Exit v => Exit v
  | Undef => Undef
  end.
Proof.
  rewrite walk_app. destruct (walk s open_brackets); try reflexivity.
  simpl. destruct (on_bracket _ c); reflexivity.
Qed.

Lemma walk_exit (s : list ascii) (open_brackets : stack) (v : verdict) :
  walk s open_brackets = Exit v -> v = Invalid.
Proof.
  revert open_brackets. induction s as [|c s IH]; intros stk; simpl.
  - discriminate.
  - destruct (on_bracket stk c) eqn:E; [apply IH | | discriminate].
    intros H. injection H as <-. exact (on_bracket_exit _ _ _ E).
Qed.

Lemma walk_defined (s : list ascii) (open_brackets : stack) :
  forallb bracket_glyph s = true -> walk s open_brackets <> Undef.
Proof.
  revert open_brackets. induction s as [|c s IH]; intros stk; simpl.
  - discriminate.
  - intros H. apply andb_prop in H. destruct H as [G Gs].
    pose proof (on_bracket_glyph_defined stk c G) as D.
    destruct (on_bracket stk c); [apply IH; exact Gs | discriminate | congruence].
Qed.

(** A balanced stretch is scanned to its end and leaves the stack as it
    found it. *)
Lemma walk_balanced (s : list ascii) :
  balanced s -> forall open_brackets, walk s open_brackets = Continue open_brackets.
Proof.
  induction 1 as [|k s B IH|s1 s2 B1 IH1 B2 IH2]; intros stk.
  - reflexivity.
  - simpl. rewrite on_bracket_opener, walk_snoc, IH, on_bracket_closer.
    rewrite Z.eqb_refl. reflexivity.
  - rewrite walk_app, IH1. apply IH2.
Qed.

Lemma walk_unclosed (p : list ascii) (ks : list kind) :
  unclosed p ks ->
  forall open_brackets, walk p open_brackets = Continue (map code ks ++ open_brackets).
Proof.
  induction 1 as [s B|p ks k s U IH B]; intros stk.
  - simpl. apply walk_balanced; exact B.
  - rewrite walk_app, IH. simpl. rewrite on_bracket_opener.
    apply walk_balanced; exact B.
Qed.

Lemma balanced_glyphs (s : list ascii) :
  balanced s -> forallb bracket_glyph s = true.
Proof.
  induction 1 as [|k s B IH|s1 s2 B1 IH1 B2 IH2].
  - reflexivity.
  - simpl. rewrite forallb_app, IH. simpl.
    unfold opener, closer. rewrite !glyph_is_bracket_glyph. reflexivity.
  - rewrite forallb_app, IH1, IH2. reflexivity.
Qed.

Lemma unclosed_app_balanced (p b : list ascii) (ks : list kind) :
  unclosed p ks -> balanced b -> unclosed (p ++ b) ks.
Proof.
  intros U B. destruct U as [s Bs|p ks k s U Bs].
  - apply unclosed_none, balanced_app; assumption.
  - rewrite <- app_assoc. simpl.
    apply unclosed_open; [exact U | apply balanced_app; assumption].
Qed.

Lemma unclosed_nil_balanced (p : list ascii) : unclosed p [] -> balanced p.
Proof. intros U. inversion U; assumption. Qed.

Lemma map_code_inj (ks ks' : list kind) : map code ks = map code ks' -> ks = ks'.
Proof.
  revert ks'. induction ks as [|k ks IH]; intros [|k' ks']; simpl; intros H;
    try discriminate H; [reflexivity|].
  injection H as Hk Hks. f_equal; [apply code_inj; exact Hk | apply IH; exact Hks].
Qed.

(** The types of the unclosed brackets are determined by the prefix. *)
Lemma unclosed_functional (p : list ascii) (ks ks' : list kind) :
  unclosed p ks -> unclosed p ks' -> ks = ks'.
Proof.
  intros U U'. apply map_code_inj.
  pose proof (walk_unclosed p ks U []) as W.
  rewrite (walk_unclosed p ks' U' []) in W.
  rewrite !app_nil_r in W. congruence.
Qed.

(** Whatever was scanned to the end, the stack lists its unclosed
    brackets. *)
Lemma walk_stack_unclosed (p : list ascii) (open_brackets : stack) :
  walk p [] = Continue open_brackets ->
  exists ks, unclosed p ks /\ open_brackets = map code ks.
Proof.
  revert open_brackets. induction p as [|c p IH] using rev_ind; intros stk W.
  - simpl in W. injection W as <-. exists []. split; [|reflexivity].
    apply unclosed_none, balanced_nil.
  - rewrite walk_snoc in W.
    destruct (walk p []) as [stk0| |] eqn:W0; try discriminate W.
    destruct (IH stk0 eq_refl) as (ks0 & U0 & ->).
    destruct (on_bracket_continue _ _ _ W) as (k & [[-> ->]|[-> E]]).
    + exists (k :: ks0). split; [|reflexivity].
      apply unclosed_open; [exact U0 | apply balanced_nil].
    + destruct ks0 as [|k0 ks1]; [discriminate E|].
      simpl in E. injection E as Ek <-. apply code_inj in Ek. subst k0.
      exists ks1. split; [|reflexivity].
      inversion U0 as [|p' ks' k' s U' B' Ep Eks]; subst.
      rewrite <- app_assoc. simpl.
      apply (unclosed_app_balanced p' (opener k :: s ++ [closer k]) ks1 U').
      apply balanced_wrap; exact B'.
Qed.

(** The walk of a bracket string ends with the stack empty exactly on the
    balanced ones. *)
Lemma walk_empty_iff_balanced (s : list ascii) :
  walk s [] = Continue [] <-> balanced s.
Proof.
  split.
  - intros W. destruct (walk_stack_unclosed s [] W) as (ks & U & E).
    destruct ks; [|discriminate E]. apply unclosed_nil_balanced; exact U.
  - intros B. apply walk_balanced; exact B.
Qed.

(** ** The run of the program *)

Lemma char_at_nth (brackets : list ascii) (n : nat) (c : ascii) :
  nth_error brackets n = Some c -> char_at brackets (Z.of_nat n) = Some c.
Proof.
  intros H. unfold char_at.
  destruct (Z.ltb_spec (Z.of_nat n) 0); [lia|].
  rewrite Nat2Z.id, H. reflexivity.
Qed.

Lemma firstn_succ_nth (brackets : list ascii) (n : nat) (c : ascii) :
  nth_error brackets n = Some c ->
  firstn (S n) brackets = firstn n brackets ++ [c].
Proof.
  revert n. induction brackets as [|b brackets IH]; intros [|n] H;
    simpl in H; try discriminate H.
  - injection H as ->. reflexivity.
  - change (b :: firstn (S n) brackets = (b :: firstn n brackets) ++ [c]).
    rewrite (IH n H). reflexivity.
Qed.

Section Scan.

Variable length : Z.
Variable brackets : list ascii.

Local Abbreviation step := (step length brackets).
Local Abbreviation state_after := (state_after length brackets).

Lemma state_after_succ (n : nat) : state_after (S n) = step (state_after n).
Proof. reflexivity. Qed.

Lemma iter_halted (n : nat) (out : outcome) :
  Nat.iter n step (Halted out) = Halted out.
Proof. induction n as [|n IH]; simpl; [|rewrite IH]; reflexivity. Qed.

Lemma iter_step_comm (n : nat) (c : config) :
  Nat.iter n step (step c) = step (Nat.iter n step c).
Proof. induction n as [|n IH]; simpl; [|rewrite IH]; reflexivity. Qed.

Lemma state_after_add (n m : nat) :
  state_after (n + m) = Nat.iter m step (state_after n).
Proof.
  induction m as [|m IH].
  - rewrite Nat.add_0_r. reflexivity.
  - rewrite Nat.add_succ_r, state_after_succ, IH. reflexivity.
Qed.

(** Past a [return 0] nothing runs any more. *)
Lemma halted_stays (n m : nat) (out : outcome) :
  state_after n = Halted out -> (n <= m)%nat -> state_after m = Halted out.
Proof.
  intros H Hle. replace m with (n + (m - n))%nat by lia.
  rewrite state_after_add, H. apply iter_halted.
Qed.

Lemma step_running (c : config) (index' : Z) (open_brackets' : stack) :
  step c = Running index' open_brackets' ->
  exists index open_brackets,
    c = Running index open_brackets
    /\ index < length
    /\ loop_body brackets index open_brackets = Continue open_brackets'
    /\ index' = index + 1.
Proof.
  destruct c as [index stk|out]; simpl; [|discriminate].
  destruct (Z.ltb_spec index length) as [Hlt|Hge].
  - destruct (loop_body brackets index stk) as [stk'| |] eqn:B;
      try discriminate.
    intros H. injection H as <- <-. exists index, stk. auto.
  - destruct stk; discriminate.
Qed.

(** After [n] loop tests that all succeeded, [index] is [n]: it counts
    the characters examined so far and never passes [length], so it stays
    in the range of [long long] whenever [length] is. *)
Lemma running_index (n : nat) (index : Z) (open_brackets : stack) :
  state_after n = Running index open_brackets ->
  index = Z.of_nat n /\ (n <= Z.to_nat length)%nat.
Proof.
  revert index open_brackets. induction n as [|n IH]; intros index stk H.
  - injection H as <- <-. split; [reflexivity | lia].
  - rewrite state_after_succ in H.
    destruct (step_running _ _ _ H) as (i & s & E & Hlt & _ & ->).
    destruct (IH i s E) as [-> _]. split; lia.
Qed.

(** [index++] never leaves the range of [ll]: the model's [index + 1] is
    the machine's. *)
Lemma index_in_range (n : nat) (index : Z) (open_brackets : stack) :
  length <= ll_max ->
  state_after n = Running index open_brackets ->
  ll_min <= index <= ll_max.
Proof.
  intros Hmax H. destruct (running_index n index open_brackets H) as [-> Hn].
  unfold ll_min, ll_max in *. lia.
Qed.

Lemma running_before (n m : nat) (index : Z) (open_brackets : stack) :
  state_after n = Running index open_brackets -> (m <= n)%nat ->
  exists open_brackets', state_after m = Running (Z.of_nat m) open_brackets'.
Proof.
  intros H Hle. destruct (state_after m) as [i s|out] eqn:E.
  - destruct (running_index m i s E) as [-> _]. exists s; reflexivity.
  - rewrite (halted_stays m n out E Hle) in H. discriminate.
Qed.

(** The run has returned after [fuel] loop tests. *)
Lemma run_halts : exists out, state_after (fuel length) = Halted out.
Proof.
  unfold fuel. rewrite state_after_succ.
  destruct (state_after (Z.to_nat length)) as [index stk|out] eqn:E.
  - destruct (running_index _ _ _ E) as [-> _]. simpl.
    destruct (Z.ltb_spec (Z.of_nat (Z.to_nat length)) length); [lia|].
    destruct stk; eexists; reflexivity.
  - exists out. reflexivity.
Qed.

Lemma main_returns : exists out, main length brackets = Some out.
Proof.
  destruct run_halts as [out H]. exists out. unfold main. rewrite H.
  reflexivity.
Qed.

Lemma main_of_halted (n : nat) (out : outcome) :
  state_after n = Halted out -> main length brackets = Some out.
Proof.
  intros H. unfold main. destruct run_halts as [out' H'].
  rewrite H'. f_equal.
  destruct (Nat.le_ge_cases n (fuel length)) as [Hle|Hle].
  - rewrite (halted_stays _ _ _ H Hle) in H'. congruence.
  - rewrite (halted_stays _ _ _ H' Hle) in H. congruence.
Qed.

(** The first [n] steps are the walk over the first [n] characters, as
    long as the string and [length] have that many. *)
Lemma state_after_walk (n : nat) :
  (n <= Z.to_nat length)%nat -> (n <= List.length brackets)%nat ->
  state_after n = config_of (Z.of_nat n) (walk (firstn n brackets) []).
Proof.
  induction n as [|n IH]; intros Hn Hs.
  - reflexivity.
  - rewrite state_after_succ, IH by lia.
    destruct (nth_error brackets n) as [c|] eqn:E.
    2:{ apply nth_error_None in E. lia. }
    rewrite (firstn_succ_nth _ _ _ E), walk_snoc.
    destruct (walk (firstn n brackets) []) as [stk| |]; try reflexivity.
    simpl. destruct (Z.ltb_spec (Z.of_nat n) length); [|lia].
    unfold loop_body. rewrite (char_at_nth _ _ _ E).
    replace (Z.of_nat n + 1) with (Z.of_nat (S n)) by lia.
    destruct (on_bracket stk c); reflexivity.
Qed.

(** With [length] at most the size of the string, [main] is the walk over
    the first [length] characters followed by the final test. *)
Lemma main_walk :
  length <= Z.of_nat (List.length brackets) ->
  main length brackets
  = Some (answer (walk (firstn (Z.to_nat length) brackets) [])).
Proof.
  intros Hle. apply (main_of_halted (fuel length)). unfold fuel.
  rewrite state_after_succ, state_after_walk by lia.
  destruct (walk (firstn (Z.to_nat length) brackets) []) as [stk| |];
    try reflexivity.
  simpl. destruct (Z.ltb_spec (Z.of_nat (Z.to_nat length)) length); [lia|].
  destruct stk; reflexivity.
Qed.

End Scan.

(** ** The characters the run examines *)

Section Examined.

Variable length : Z.
Variable brackets : list ascii.

Local Abbreviation step := (step length brackets).
Local Abbreviation state_after := (state_after length brackets).
Local Abbreviation reads := (reads length).
Local Abbreviation examined_in := (examined_in length brackets).

Lemma examined_in_halted (n : nat) (out : outcome) :
  examined_in n (Halted out) = [].
Proof. induction n as [|n IH]; simpl; [reflexivity | exact IH]. Qed.

Lemma examined_in_add (n m : nat) (c : config) :
  examined_in (n + m) c = examined_in n c ++ examined_in m (Nat.iter n step c).
Proof.
  revert c. induction n as [|n IH]; intros c.
  - reflexivity.
  - change (Nat.iter (S n) step c) with (step (Nat.iter n step c)).
    rewrite <- iter_step_comm. simpl.
    rewrite IH, app_assoc. reflexivity.
Qed.

Lemma examined_in_succ_r (n : nat) :
  examined_in (S n) start = examined_in n start ++ reads (state_after n).
Proof.
  replace (S n) with (n + 1)%nat by lia. rewrite examined_in_add.
  simpl. rewrite app_nil_r. reflexivity.
Qed.

Lemma reads_running (n : nat) (index : Z) (open_brackets : stack) :
  state_after n = Running index open_brackets -> index < length ->
  reads (state_after n) = [Z.of_nat n].
Proof.
  intros H Hlt. destruct (running_index _ _ _ _ _ H) as [-> _].
  rewrite H. simpl.
  destruct (Z.ltb_spec (Z.of_nat n) length); [reflexivity | lia].
Qed.

(** While the loop runs, the characters examined are those at
    [0 .. index - 1], one after the other. *)
Lemma examined_running (n : nat) (index : Z) (open_brackets : stack) :
  state_after n = Running index open_brackets ->
  examined_in n start = map Z.of_nat (seq 0 n).
Proof.
  revert index open_brackets. induction n as [|n IH]; intros index stk H.
  - reflexivity.
  - rewrite state_after_succ in H.
    destruct (step_running _ _ _ _ _ H) as (i & s & E & Hlt & _ & _).
    rewrite examined_in_succ_r, (IH i s E), (reads_running n i s E Hlt).
    rewrite seq_S, map_app. reflexivity.
Qed.

Lemma examined_through (n : nat) (index : Z) (open_brackets : stack) :
  state_after n = Running index open_brackets -> index < length ->
  examined_in (S n) start = map Z.of_nat (seq 0 (S n)).
Proof.
  intros H Hlt.
  rewrite examined_in_succ_r, (examined_running n _ _ H),
    (reads_running n _ _ H Hlt), seq_S, map_app.
  reflexivity.
Qed.

(** The examined characters are an initial stretch of the first [length]
    positions. *)
Lemma examined_in_initial (n : nat) :
  exists k, (k <= Z.to_nat length)%nat
            /\ examined_in n start = map Z.of_nat (seq 0 k).
Proof.
  induction n as [|n (k & Hk & IH)].
  - exists O. split; [lia | reflexivity].
  - destruct (state_after n) as [index stk|out] eqn:E.
    + destruct (Z.ltb_spec index length) as [Hlt|Hge].
      * exists (S n). split; [|exact (examined_through n index stk E Hlt)].
        destruct (running_index _ _ _ _ _ E) as [-> _]. lia.
      * exists k. split; [exact Hk|].
        rewrite examined_in_succ_r, IH, E. simpl.
        destruct (Z.ltb_spec index length); [lia|]. apply app_nil_r.
    + exists k. split; [exact Hk|].
      rewrite examined_in_succ_r, IH, E. apply app_nil_r.
Qed.

Lemma examined_initial :
  exists k, (k <= Z.to_nat length)%nat
            /\ examined length brackets = map Z.of_nat (seq 0 k).
Proof. apply examined_in_initial. Qed.

(** Once the run has returned at its [n]-th step, nothing after the first
    [n] reads is examined. *)
Lemma examined_of_halted (n : nat) (out : outcome) :
  state_after n = Halted out -> (n <= fuel length)%nat ->
  examined length brackets = examined_in n start.
Proof.
  intros H Hle. unfold examined.
  replace (fuel length) with (n + (fuel length - n))%nat by lia.
  rewrite examined_in_add.
  change (Nat.iter n step start) with (state_after n).
  rewrite H, examined_in_halted. apply app_nil_r.
Qed.

End Examined.

(** ** Further facts about the run *)

(** A run that is still in the loop has not gone past the end of the
    string: the terminator is not a bracket. *)
Lemma running_within (length : Z) (brackets : list ascii) (n : nat)
  (index : Z) (open_brackets : stack) :
  state_after length brackets n = Running index open_brackets ->
  (n <= List.length brackets)%nat.
Proof.
  intros H. destruct (Nat.le_gt_cases n (List.length brackets)) as [|Hgt];
    [assumption | exfalso].
  destruct (running_before length brackets n (S (List.length brackets))
              index open_brackets H Hgt) as [stk' E'].
  rewrite state_after_succ in E'.
  destruct (step_running _ _ _ _ _ E') as (i & s & E & _ & B & _).
  destruct (running_index _ _ _ _ _ E) as [-> _].
  unfold loop_body, char_at in B.
  destruct (Z.ltb_spec (Z.of_nat (List.length brackets)) 0); [lia|].
  rewrite Nat2Z.id in B.
  destruct (nth_error brackets (List.length brackets)) as [c|] eqn:N.
  - assert (nth_error brackets (List.length brackets) <> None) as N'
        by congruence.
    apply nth_error_Some in N'. lia.
  - rewrite Z.eqb_refl in B. discriminate B.
Qed.

Lemma running_walk (length : Z) (brackets : list ascii) (n : nat)
  (index : Z) (open_brackets : stack) :
  state_after length brackets n = Running index open_brackets ->
  index = Z.of_nat n
  /\ walk (firstn n brackets) [] = Continue open_brackets.
Proof.
  intros H. destruct (running_index _ _ _ _ _ H) as [-> Hn].
  split; [reflexivity|].
  pose proof (running_within _ _ _ _ _ H) as Hs.
  rewrite (state_after_walk length brackets n Hn Hs) in H.
  destruct (walk (firstn n brackets) []); simpl in H; congruence.
Qed.

(** On an input of the specification the run prints a verdict. *)
Lemma main_on_bracket_input (length : Z) (brackets : list ascii) :
  bracket_input length brackets ->
  main length brackets = Some (answer (walk brackets []))
  /\ exists v, answer (walk brackets []) = Printed v.
Proof.
  intros [-> G]. rewrite main_walk by lia.
  rewrite Nat2Z.id, firstn_all. split; [reflexivity|].
  pose proof (walk_defined brackets [] G) as D.
  destruct (walk brackets []) as [[|top below]|v|]; simpl;
    [exists Valid | exists Invalid | exists v | congruence]; reflexivity.
Qed.

(** The run reads [brackets] only below [length]. *)
Lemma char_at_firstn (length : Z) (b1 b2 : list ascii) (index : Z) :
  firstn (Z.to_nat length) b1 = firstn (Z.to_nat length) b2 ->
  index < length -> char_at b1 index = char_at b2 index.
Proof.
  intros F Hlt. unfold char_at.
  destruct (Z.ltb_spec index 0) as [|Hpos]; [reflexivity|].
  assert (Z.to_nat index < Z.to_nat length)%nat as Hn by lia.
  pose proof (nth_error_firstn (Z.to_nat length) b1 (Z.to_nat index)) as N1.
  pose proof (nth_error_firstn (Z.to_nat length) b2 (Z.to_nat index)) as N2.
  apply Nat.ltb_lt in Hn. rewrite Hn in N1, N2. apply Nat.ltb_lt in Hn.
  rewrite F in N1.
  assert (nth_error b1 (Z.to_nat index) = nth_error b2 (Z.to_nat index)) as N
      by congruence.
  rewrite N. destruct (nth_error b2 (Z.to_nat index)) eqn:E; [reflexivity|].
  apply nth_error_None in N, E.
  pose proof (f_equal (@List.length ascii) F) as L.
  rewrite !length_firstn in L.
  replace (List.length b1) with (List.length b2) by lia. reflexivity.
Qed.

Lemma step_firstn (length : Z) (b1 b2 : list ascii) (c : config) :
  firstn (Z.to_nat length) b1 = firstn (Z.to_nat length) b2 ->
  step length b1 c = step length b2 c.
Proof.
  intros F. destruct c as [index stk|out]; [|reflexivity]. simpl.
  destruct (Z.ltb_spec index length) as [Hlt|]; [|reflexivity].
  unfold loop_body. rewrite (char_at_firstn length b1 b2 index F Hlt).
  reflexivity.
Qed.

Lemma state_after_firstn (length : Z) (b1 b2 : list ascii) (n : nat) :
  firstn (Z.to_nat length) b1 = firstn (Z.to_nat length) b2 ->
  state_after length b1 n = state_after length b2 n.
Proof.
  intros F. induction n as [|n IH]; [reflexivity|].
  rewrite !state_after_succ, IH. apply step_firstn; exact F.
Qed.

(** ** The full-scan reference *)

Section FullScan.

Variable recover : stack -> bracket_t -> stack.

(** Once a mismatch is recorded the verdict is Invalid, whatever follows. *)
Lemma full_scan_mismatch (s : list ascii) (open_brackets : stack) :
  forallb bracket_glyph s = true ->
  full_scan recover s open_brackets true = Printed Invalid.
Proof.
  revert open_brackets. induction s as [|c s IH]; intros stk G; simpl.
  - reflexivity.
  - simpl in G. apply andb_prop in G. destruct G as [Gc Gs].
    destruct (bracket_glyph_inv c Gc) as (k & role & ->).
    destruct (classify_glyph k role) as [T R]. rewrite R, T.
    destruct role; [apply IH; exact Gs|].
    destruct stk as [|top below]; [apply IH; exact Gs|].
    destruct (code k =? top); apply IH; exact Gs.
Qed.

Lemma full_scan_walk (s : list ascii) (open_brackets : stack) :
  forallb bracket_glyph s = true ->
  full_scan recover s open_brackets false = answer (walk s open_brackets).
Proof.
  revert open_brackets. induction s as [|c s IH]; intros stk G.
  - destruct stk; reflexivity.
  - simpl in G. apply andb_prop in G. destruct G as [Gc Gs].
    destruct (bracket_glyph_inv c Gc) as (k & role & ->).
    cbn [full_scan walk].
    destruct (classify_glyph k role) as [T R]. rewrite R, T.
    destruct role.
    + change (glyph k true) with (opener k). rewrite on_bracket_opener.
      apply IH; exact Gs.
    + change (glyph k false) with (closer k). rewrite on_bracket_closer.
      destruct stk as [|top below].
      * apply full_scan_mismatch; exact Gs.
      * destruct (code k =? top);
          [apply IH | apply full_scan_mismatch]; exact Gs.
Qed.

End FullScan.

(** * The properties of the specification *)

(** C1. For every string made only of the six bracket glyphs, with
    [length] equal to the number of its characters, the program prints
    Valid if and only if the string is a balanced bracket sequence, and it
    prints Invalid if and only if it is not. *)
Theorem valid_iff_balanced (length : Z) (brackets : list ascii) :
  bracket_input length brackets ->
  (main length brackets = Some (Printed Valid) <-> balanced brackets)
  /\ (main length brackets = Some (Printed Invalid) <-> ~ balanced brackets).
Proof.
  intros I. destruct (main_on_bracket_input _ _ I) as [-> [v A]].
  pose proof (walk_empty_iff_balanced brackets) as B.
  destruct (walk brackets []) as [[|top below]|v'|] eqn:W; simpl in *.
  - split; split; try discriminate; try reflexivity.
    + intros _. apply B. reflexivity.
    + intros NB. exfalso. apply NB, B. reflexivity.
  - split; split; try discriminate; try reflexivity.
    + intros Bal. apply B in Bal. discriminate Bal.
    + intros _ Bal. apply B in Bal. discriminate Bal.
  - rewrite (walk_exit _ _ _ W).
    split; split; try discriminate; try reflexivity.
    + intros Bal. apply B in Bal. discriminate Bal.
    + intros _ Bal. apply B in Bal. discriminate Bal.
  - discriminate A.
Qed.

Lemma valid_iff_balanced_witness :
  (main 8 (chars "{[()()]}") = Some (Printed Valid)
   <-> balanced (chars "{[()()]}"))
  /\ (main 8 (chars "{[()()]}") = Some (Printed Invalid)
      <-> ~ balanced (chars "{[()()]}")).
Proof. apply valid_iff_balanced. split; reflexivity. Defined.

(** C2. When the scan is at a closing bracket and the stack is empty, or its
    top is of another type than the bracket, the step prints Invalid and
    returns: that is the answer of the run, and the characters examined are
    those at [0 .. index], none after the offending one. *)
Theorem unmatched_closer_stops (length : Z) (brackets : list ascii) (n : nat)
  (index : Z) (open_brackets : stack) (bracket : ascii) :
  state_after length brackets n = Running index open_brackets ->
  index < length ->
  char_at brackets index = Some bracket ->
  bracket_state bracket = Some CLOSE ->
  (open_brackets = []
   \/ exists top below,
        open_brackets = top :: below /\ bracket_type bracket <> Some top) ->
  step length brackets (Running index open_brackets) = Halted (Printed Invalid)
  /\ main length brackets = Some (Printed Invalid)
  /\ examined length brackets = map Z.of_nat (seq 0 (S (Z.to_nat index))).
Proof.
  intros H Hlt C Hstate Hstk.
  destruct (bracket_state_some _ _ Hstate) as [k ->].
  assert (step length brackets (Running index open_brackets)
          = Halted (Printed Invalid)) as St.
  { simpl. destruct (Z.ltb_spec index length); [|lia].
    unfold loop_body. rewrite C.
    change (glyph k CLOSE) with (closer k). rewrite on_bracket_closer.
    destruct Hstk as [->|(top & below & -> & Ht)]; [reflexivity|].
    destruct (classify_glyph k CLOSE) as [T _]. rewrite T in Ht.
    destruct (Z.eqb_spec (code k) top); [congruence | reflexivity]. }
  assert (state_after length brackets (S n) = Halted (Printed Invalid)) as Sn
      by (rewrite state_after_succ, H; exact St).
  destruct (running_index _ _ _ _ _ H) as [E _].
  split; [exact St | split].
  - exact (main_of_halted _ _ _ _ Sn).
  - rewrite (examined_of_halted _ _ _ _ Sn) by (unfold fuel; lia).
    rewrite (examined_through _ _ _ _ _ H Hlt), E, Nat2Z.id. reflexivity.
Qed.

Lemma unmatched_closer_stops_witness :
  step 4 (chars "(]()") (Running 1 [ROUND]) = Halted (Printed Invalid)
  /\ main 4 (chars "(]()") = Some (Printed Invalid)
  /\ examined 4 (chars "(]()") = map Z.of_nat (seq 0 (S (Z.to_nat 1))).
Proof.
  apply (unmatched_closer_stops 4 (chars "(]()") 1 1 [ROUND] "]").
  - reflexivity.
  - lia.
  - reflexivity.
  - reflexivity.
  - right. exists ROUND, []. split; [reflexivity | discriminate].
Defined.

(** C3. When the loop test fails, that is when the scan has reached the end
    of the input without returning early, the program prints Valid if the
    stack is empty and Invalid if it is not; the input "([" of length 2
    gives Invalid. *)
Theorem end_of_scan_verdict :
  (forall (length : Z) (brackets : list ascii) (n : nat) (index : Z)
          (open_brackets : stack),
      state_after length brackets n = Running index open_brackets ->
      length <= index ->
      main length brackets
      = Some (Printed match open_brackets with
                      | [] => Valid
                      | _ :: _ => Invalid
                      end))
  /\ main 2 (chars "([") = Some (Printed Invalid).
Proof.
  split; [|reflexivity].
  intros length brackets n index stk H Hge.
  apply (main_of_halted length brackets (S n)).
  rewrite state_after_succ, H. simpl.
  destruct (Z.ltb_spec index length); [lia|].
  destruct stk; reflexivity.
Qed.

Lemma end_of_scan_verdict_witness :
  main 4 (chars "([])") = Some (Printed Valid)
  /\ main 3 (chars "([]") = Some (Printed Invalid).
Proof.
  destruct end_of_scan_verdict as [V _]. split.
  - apply (V 4 (chars "([])") 4%nat 4 []); [reflexivity | lia].
  - apply (V 3 (chars "([]") 3%nat 3 [ROUND]); [reflexivity | lia].
Defined.

(** C4. On the empty string with [length] 0 the program prints Valid. *)
Theorem empty_input_valid : main 0 [] = Some (Printed Valid).
Proof. reflexivity. Qed.

(** C5. At every loop test of the scan the stack holds exactly the types of
    the brackets of the prefix read so far that are open and not yet
    closed, the most recently opened at the top and the earliest at the
    bottom: no other list of types fits the prefix, and the top, when there
    is one, is the type of the last opener that only a balanced stretch
    follows, the innermost open bracket. *)
Theorem stack_holds_unclosed (length : Z) (brackets : list ascii) (n : nat)
  (index : Z) (open_brackets : stack) :
  state_after length brackets n = Running index open_brackets ->
  exists ks,
    unclosed (firstn (Z.to_nat index) brackets) ks
    /\ open_brackets = map code ks
    /\ (forall ks', unclosed (firstn (Z.to_nat index) brackets) ks' -> ks' = ks)
    /\ (forall top below,
           open_brackets = top :: below ->
           exists k p s,
             top = code k
             /\ firstn (Z.to_nat index) brackets = p ++ opener k :: s
             /\ balanced s
             /\ unclosed p (tl ks)
             /\ below = map code (tl ks)).
Proof.
  intros H. destruct (running_walk _ _ _ _ _ H) as [-> W].
  rewrite Nat2Z.id.
  destruct (walk_stack_unclosed _ _ W) as (ks & U & ->).
  exists ks. split; [exact U | split; [reflexivity | split]].
  - intros ks' U'. exact (unclosed_functional _ _ _ U' U).
  - intros top below E. destruct ks as [|k ks1]; [discriminate E|].
    simpl in E. injection E as <- <-.
    inversion U as [|p ks' k' s U' B' Ep Eks]; subst.
    exists k, p, s. simpl. auto.
Qed.

Lemma stack_holds_unclosed_witness :
  exists ks,
    unclosed (firstn (Z.to_nat 3) (chars "([{}])")) ks
    /\ [CURLY; SQUARE; ROUND] = map code ks
    /\ (forall ks', unclosed (firstn (Z.to_nat 3) (chars "([{}])")) ks'
                 -> ks' = ks)
    /\ (forall top below,
           [CURLY; SQUARE; ROUND] = top :: below ->
           exists k p s,
             top = code k
             /\ firstn (Z.to_nat 3) (chars "([{}])") = p ++ opener k :: s
             /\ balanced s
             /\ unclosed p (tl ks)
             /\ below = map code (tl ks)).
Proof.
  apply (stack_holds_unclosed 6 (chars "([{}])") 3 3 [CURLY; SQUARE; ROUND]).
  reflexivity.
Defined.

(** C6. On every input of bracket glyphs the program, which returns at the
    first closer without a match, prints the verdict that a full-scan
    reference gives after it has processed every character, whatever that
    reference does with its stack at a mismatch. *)
Theorem short_circuit_agrees_with_full_scan
  (recover : stack -> bracket_t -> stack) (length : Z) (brackets : list ascii) :
  bracket_input length brackets ->
  main length brackets = Some (full_scan_reference recover brackets).
Proof.
  intros I. destruct (main_on_bracket_input _ _ I) as [-> _].
  destruct I as [_ G]. unfold full_scan_reference.
  rewrite (full_scan_walk recover brackets [] G). reflexivity.
Qed.

Lemma short_circuit_agrees_with_full_scan_witness :
  main 4 (chars "(]))") = Some (full_scan_reference keep_stack (chars "(]))"))
  /\ main 4 (chars "(]))") = Some (full_scan_reference drop_top (chars "(]))")).
Proof.
  split; apply short_circuit_agrees_with_full_scan; split; reflexivity.
Defined.

(** C8, as amended. Every run is bounded by [length]: within [fuel], one
    more loop test than [length] when [length] is positive, it has returned
    or has reached a character on which the classifiers do not return, and
    it examines at most [length] characters; on a string of [length]
    bracket glyphs it returns with exactly one printed verdict. *)
Theorem scan_terminates (length : Z) (brackets : list ascii) :
  (exists out,
      state_after length brackets (fuel length) = Halted out
      /\ main length brackets = Some out)
  /\ (List.length (examined length brackets) <= Z.to_nat length)%nat
  /\ (bracket_input length brackets ->
      exists v, main length brackets = Some (Printed v)
                /\ forall v', main length brackets = Some (Printed v') -> v' = v).
Proof.
  split; [|split].
  - destruct (run_halts length brackets) as [out H]. exists out.
    split; [exact H | exact (main_of_halted _ _ _ _ H)].
  - destruct (examined_initial length brackets) as (k & Hk & ->).
    rewrite length_map, length_seq. exact Hk.
  - intros I. destruct (main_on_bracket_input _ _ I) as [M [v A]].
    exists v. rewrite M, A. split; [reflexivity | congruence].
Qed.

Lemma scan_terminates_witness :
  (exists out,
      state_after 6 (chars "([{}])") (fuel 6) = Halted out
      /\ main 6 (chars "([{}])") = Some out)
  /\ (List.length (examined 6 (chars "([{}])")) <= Z.to_nat 6)%nat
  /\ exists v, main 6 (chars "([{}])") = Some (Printed v).
Proof.
  destruct (scan_terminates 6 (chars "([{}])")) as (H & E & V).
  split; [exact H | split; [exact E|]].
  destruct V as (v & M & _); [split; reflexivity|].
  exists v. exact M.
Defined.

(** C8, as stated, fails on an input that is not made of brackets: on the
    one character "a" the run reaches the end of [bracket_state] without a
    [return] and no verdict is defined. *)
Lemma scan_without_verdict :
  main 1 (chars "a") = Some Undefined
  /\ ~ (exists v, main 1 (chars "a") = Some (Printed v)).
Proof.
  split; [reflexivity|]. intros [v H]. discriminate H.
Qed.

(** C10. The answer depends only on the first [length] characters: two
    strings that agree on them give, with the same [length], the same
    output, and no character at a position [length] or beyond is
    examined. *)
Theorem only_first_length_characters (length : Z) (b1 b2 : list ascii) :
  firstn (Z.to_nat length) b1 = firstn (Z.to_nat length) b2 ->
  main length b1 = main length b2
  /\ (forall index, In index (examined length b1) -> 0 <= index < length).
Proof.
  intros F. split.
  - unfold main. rewrite (state_after_firstn length b1 b2 _ F). reflexivity.
  - intros index Hin.
    destruct (examined_initial length b1) as (k & Hk & E).
    rewrite E in Hin. apply in_map_iff in Hin.
    destruct Hin as (j & <- & Hj). apply in_seq in Hj. lia.
Qed.

Lemma only_first_length_characters_witness :
  main 2 (chars "()]]") = main 2 (chars "()((")
  /\ (forall index, In index (examined 2 (chars "()]]")) -> 0 <= index < 2).
Proof.
  apply (only_first_length_characters 2 (chars "()]]") (chars "()((")).
  reflexivity.
Defined.

(** * Further properties of the program *)

(** ** The run on any [length] and any string *)

Lemma on_bracket_terminator (open_brackets : stack) :
  on_bracket open_brackets zero = Undef.
Proof. reflexivity. Qed.

Lemma on_bracket_not_glyph (open_brackets : stack) (c : ascii) :
  bracket_glyph c = false -> on_bracket open_brackets c = Undef.
Proof.
  intros G. destruct (classifiers_fall_through c G) as [_ E].
  unfold on_bracket. rewrite E. reflexivity.
Qed.

Lemma terminated_short (length : Z) (brackets : list ascii) :
  length <= Z.of_nat (List.length brackets) ->
  firstn (Z.to_nat length) (terminated brackets)
  = firstn (Z.to_nat length) brackets.
Proof.
  intros Hle. unfold terminated. rewrite firstn_app.
  replace (Z.to_nat length - List.length brackets)%nat with O by lia.
  apply app_nil_r.
Qed.

Lemma terminated_long (length : Z) (brackets : list ascii) :
  Z.of_nat (List.length brackets) < length ->
  firstn (Z.to_nat length) (terminated brackets) = terminated brackets.
Proof.
  intros Hlt. apply firstn_all2. unfold terminated.
  rewrite length_app. simpl. lia.
Qed.

(** [main] is the walk over the first [length] characters of the
    terminated string, followed by the final test. *)
Lemma main_walk_terminated (length : Z) (brackets : list ascii) :
  main length brackets
  = Some (answer (walk (firstn (Z.to_nat length) (terminated brackets)) [])).
Proof.
  destruct (Z.le_gt_cases length (Z.of_nat (List.length brackets)))
    as [Hle|Hgt].
  - rewrite (terminated_short _ _ Hle). apply main_walk; exact Hle.
  - rewrite terminated_long by lia. unfold terminated. rewrite walk_snoc.
    apply (main_of_halted length brackets (S (List.length brackets))).
    rewrite state_after_succ, state_after_walk by lia.
    rewrite firstn_all.
    destruct (walk brackets []) as [stk| |]; try reflexivity.
    rewrite on_bracket_terminator. simpl.
    destruct (Z.ltb_spec (Z.of_nat (List.length brackets)) length); [|lia].
    unfold loop_body, char_at.
    destruct (Z.ltb_spec (Z.of_nat (List.length brackets)) 0); [lia|].
    rewrite Nat2Z.id.
    destruct (nth_error brackets (List.length brackets)) eqn:N.
    + assert (nth_error brackets (List.length brackets) <> None) as N'
          by congruence.
      apply nth_error_Some in N'. lia.
    + rewrite Z.eqb_refl. reflexivity.
Qed.

Lemma answer_valid (s : list ascii) :
  answer (walk s []) = Printed Valid <-> balanced s.
Proof.
  rewrite <- walk_empty_iff_balanced.
  destruct (walk s []) as [[|top below]|v|] eqn:W; simpl;
    split; intros H; try reflexivity; try discriminate H.
  rewrite (walk_exit _ _ _ W) in H. discriminate H.
Qed.

Lemma terminator_not_balanced (brackets : list ascii) :
  ~ balanced (terminated brackets).
Proof.
  intros B. apply balanced_glyphs in B. unfold terminated in B.
  rewrite forallb_app in B. apply andb_prop in B.
  destruct B as [_ B]. discriminate B.
Qed.

(** The outcome of the run is [Printed Valid] exactly when [length] does
    not pass the end of the string and the first [length] characters are
    balanced; the runs with outcome [Undefined] are on neither side. *)
Lemma main_valid_iff (length : Z) (brackets : list ascii) :
  main length brackets = Some (Printed Valid)
  <-> length <= Z.of_nat (List.length brackets)
      /\ balanced (firstn (Z.to_nat length) brackets).
Proof.
  rewrite main_walk_terminated.
  destruct (Z.le_gt_cases length (Z.of_nat (List.length brackets)))
    as [Hle|Hgt].
  - rewrite (terminated_short _ _ Hle). split.
    + intros H. injection H as H. apply answer_valid in H. auto.
    + intros [_ B]. f_equal. apply answer_valid; exact B.
  - rewrite terminated_long by lia. split.
    + intros H. injection H as H. apply answer_valid in H.
      destruct (terminator_not_balanced _ H).
    + intros [Hle _]. lia.
Qed.

(** ** Where a walk stops *)

Lemma walk_continue_iff (p : list ascii) (open_brackets : stack) :
  walk p [] = Continue open_brackets
  <-> exists ks, unclosed p ks /\ open_brackets = map code ks.
Proof.
  split; [apply walk_stack_unclosed|].
  intros (ks & U & ->). rewrite (walk_unclosed p ks U []).
  rewrite app_nil_r. reflexivity.
Qed.

Lemma walk_undef_inv (s : list ascii) (open_brackets : stack) :
  walk s open_brackets = Undef ->
  exists pre c post open_brackets',
    s = pre ++ c :: post
    /\ walk pre open_brackets = Continue open_brackets'
    /\ bracket_glyph c = false.
Proof.
  revert open_brackets. induction s as [|c s IH]; intros stk; simpl.
  - discriminate.
  - destruct (on_bracket stk c) as [stk1|v|] eqn:E; try discriminate.
    + intros W. destruct (IH stk1 W) as (pre & c' & post & stk' & -> & Wp & G).
      exists (c :: pre), c', post, stk'. simpl. rewrite E. auto.
    + intros _. exists [], c, s, stk. repeat split.
      destruct (bracket_glyph c) eqn:G; [|reflexivity].
      destruct (on_bracket_glyph_defined stk c G E).
Qed.

Lemma walk_undef_intro (pre post : list ascii) (c : ascii)
  (open_brackets open_brackets' : stack) :
  walk pre open_brackets = Continue open_brackets' ->
  bracket_glyph c = false ->
  walk (pre ++ c :: post) open_brackets = Undef.
Proof.
  intros W G. rewrite walk_app, W. simpl.
  rewrite (on_bracket_not_glyph _ _ G). reflexivity.
Qed.

Lemma answer_undefined (s : list ascii) :
  answer (walk s []) = Undefined <-> walk s [] = Undef.
Proof.
  destruct (walk s []) as [[|top below]|v|]; simpl; split; intros H;
    try reflexivity; discriminate H.
Qed.

Lemma on_bracket_unmatched (ks : list kind) (k : kind) :
  hd_error ks <> Some k ->
  on_bracket (map code ks) (closer k) = Exit Invalid.
Proof.
  intros H. rewrite on_bracket_closer. destruct ks as [|k0 ks]; [reflexivity|].
  simpl. destruct (Z.eqb_spec (code k) (code k0)) as [E|]; [|reflexivity].
  apply code_inj in E. subst k0. simpl in H. congruence.
Qed.

(** ** Counting brackets *)

Lemma occurrences_cons (x c : ascii) (s : list ascii) :
  occurrences x (c :: s)
  = ((if Ascii.eqb x c then 1 else 0) + occurrences x s)%nat.
Proof. unfold occurrences. simpl. destruct (Ascii.eqb x c); reflexivity. Qed.

Lemma entries_cons (x t : bracket_t) (open_brackets : stack) :
  entries x (t :: open_brackets)
  = ((if Z.eqb x t then 1 else 0) + entries x open_brackets)%nat.
Proof. unfold entries. simpl. destruct (Z.eqb x t); reflexivity. Qed.

(** Each pass of the body that reaches its end keeps, for every type, the
    balance between stack entries, openers and closers. *)
Lemma walk_counts (s : list ascii) (open_brackets open_brackets' : stack)
  (k : kind) :
  walk s open_brackets = Continue open_brackets' ->
  (entries (code k) open_brackets' + occurrences (closer k) s
   = entries (code k) open_brackets + occurrences (opener k) s)%nat.
Proof.
  revert open_brackets. induction s as [|c s IH]; intros stk; simpl.
  - intros H. injection H as ->. reflexivity.
  - destruct (on_bracket stk c) as [stk1|v|] eqn:E; try discriminate.
    intros W. specialize (IH stk1 W).
    rewrite !occurrences_cons.
    destruct (on_bracket_continue _ _ _ E) as (k0 & [[-> ->]|[-> ->]]);
      rewrite entries_cons in *; destruct k, k0; simpl in *; lia.
Qed.

Lemma walk_height (s : list ascii) (open_brackets open_brackets' : stack) :
  walk s open_brackets = Continue open_brackets' ->
  (List.length open_brackets' <= List.length open_brackets + List.length s)%nat.
Proof.
  revert open_brackets. induction s as [|c s IH]; intros stk; simpl.
  - intros H. injection H as ->. lia.
  - destruct (on_bracket stk c) as [stk1|v|] eqn:E; try discriminate.
    intros W. specialize (IH stk1 W).
    destruct (on_bracket_continue _ _ _ E) as (k0 & [[_ ->]|[_ ->]]);
      simpl in *; lia.
Qed.

Lemma balanced_even (s : list ascii) :
  balanced s -> Nat.even (List.length s) = true.
Proof.
  induction 1 as [|k s B IH|s1 s2 B1 IH1 B2 IH2].
  - reflexivity.
  - simpl. rewrite length_app. simpl.
    replace (List.length s + 1)%nat with (S (List.length s)) by lia.
    exact IH.
  - rewrite length_app, Nat.even_add, IH1, IH2. reflexivity.
Qed.

(** Valid is printed only by the test after the loop. *)
Lemma valid_from_loop_end (length : Z) (brackets : list ascii) (n : nat) :
  state_after length brackets n = Halted (Printed Valid) ->
  exists m index,
    state_after length brackets m = Running index [] /\ length <= index.
Proof.
  induction n as [|n IH]; [discriminate|].
  rewrite state_after_succ.
  destruct (state_after length brackets n) as [index stk|out] eqn:E; simpl.
  - destruct (Z.ltb_spec index length) as [Hlt|Hge].
    + unfold loop_body. destruct (char_at brackets index) as [c|];
        [|discriminate].
      destruct (on_bracket stk c) as [stk1|v|] eqn:B; try discriminate.
      rewrite (on_bracket_exit _ _ _ B). discriminate.
    + destruct stk; [|discriminate]. intros _. exists n, index. auto.
  - intros H. injection H as ->. apply IH. reflexivity.
Qed.

(** ** Edge cases of [length] *)

(** X1. With [length] zero or negative the loop body never runs: the
    program prints Valid whatever the string is, and examines none of its
    characters. *)
Theorem nonpositive_length_prints_valid (length : Z) (brackets : list ascii) :
  length <= 0 ->
  main length brackets = Some (Printed Valid)
  /\ examined length brackets = [].
Proof.
  intros Hle. unfold main, examined, fuel.
  replace (Z.to_nat length) with O by lia. simpl.
  destruct (Z.ltb_spec 0 length); [lia|]. split; reflexivity.
Qed.

Lemma nonpositive_length_prints_valid_witness :
  main (-3) (chars ")]x") = Some (Printed Valid)
  /\ examined (-3) (chars ")]x") = [].
Proof. apply nonpositive_length_prints_valid. lia. Defined.

(** X2. When [length] does not exceed the size of the string and the
    first [length] characters are bracket glyphs, the program prints Valid
    if those characters form a balanced sequence and Invalid if they do
    not; the characters after them, brackets or not, play no part. *)
Theorem valid_exactly_on_balanced_prefix (length : Z) (brackets : list ascii) :
  length <= Z.of_nat (List.length brackets) ->
  forallb bracket_glyph (firstn (Z.to_nat length) brackets) = true ->
  (main length brackets = Some (Printed Valid)
   <-> balanced (firstn (Z.to_nat length) brackets))
  /\ (main length brackets = Some (Printed Invalid)
      <-> ~ balanced (firstn (Z.to_nat length) brackets)).
Proof.
  intros Hle G. rewrite (main_walk _ _ Hle).
  pose proof (walk_empty_iff_balanced (firstn (Z.to_nat length) brackets)) as B.
  pose proof (walk_defined _ [] G) as D.
  destruct (walk (firstn (Z.to_nat length) brackets) [])
    as [[|top below]|v|] eqn:W; simpl; [| | |congruence].
  - split; split; try discriminate; try reflexivity.
    + intros _. apply B. reflexivity.
    + intros NB. exfalso. apply NB, B. reflexivity.
  - split; split; try discriminate; try reflexivity.
    + intros Bal. apply B in Bal. discriminate Bal.
    + intros _ Bal. apply B in Bal. discriminate Bal.
  - rewrite (walk_exit _ _ _ W).
    split; split; try discriminate; try reflexivity.
    + intros Bal. apply B in Bal. discriminate Bal.
    + intros _ Bal. apply B in Bal. discriminate Bal.
Qed.

Lemma valid_exactly_on_balanced_prefix_witness :
  (main 4 (chars "[()]x)") = Some (Printed Valid)
   <-> balanced (firstn (Z.to_nat 4) (chars "[()]x)")))
  /\ (main 4 (chars "[()]x)") = Some (Printed Invalid)
      <-> ~ balanced (firstn (Z.to_nat 4) (chars "[()]x)"))).
Proof.
  apply valid_exactly_on_balanced_prefix; [simpl; lia | reflexivity].
Defined.

(** X3. With [length] larger than the size of a string of bracket glyphs,
    the run is decided by the string alone: if some closer has no match the
    program prints Invalid, and if none has, the run goes on to the
    terminator of the string, on which neither classifier returns, so that
    its behaviour is undefined.  One of the two cases always applies. *)
Theorem overlong_length (length : Z) (brackets : list ascii) :
  Z.of_nat (List.length brackets) < length ->
  forallb bracket_glyph brackets = true ->
  ((exists ks, unclosed brackets ks) -> main length brackets = Some Undefined)
  /\ (~ (exists ks, unclosed brackets ks) ->
      main length brackets = Some (Printed Invalid))
  /\ ((exists ks, unclosed brackets ks) \/ ~ (exists ks, unclosed brackets ks)).
Proof.
  intros Hgt G. rewrite main_walk_terminated, terminated_long by lia.
  unfold terminated. rewrite walk_snoc.
  pose proof (walk_defined brackets [] G) as D.
  pose proof (walk_continue_iff brackets) as C.
  destruct (walk brackets []) as [stk|v|] eqn:W; [| |congruence].
  - rewrite on_bracket_terminator. simpl.
    assert (exists ks, unclosed brackets ks) as U.
    { destruct (proj1 (C stk) eq_refl) as (ks & U & _). exists ks; exact U. }
    split; [reflexivity | split; [intros N; destruct (N U) | left; exact U]].
  - rewrite (walk_exit _ _ _ W). simpl.
    assert (~ exists ks, unclosed brackets ks) as U.
    { intros (ks & U).
      pose proof (proj2 (C (map code ks)) (ex_intro _ ks (conj U eq_refl))) as E.
      discriminate E. }
    split; [intros H; destruct (U H) | split; [reflexivity | right; exact U]].
Qed.

Lemma overlong_length_witness :
  ((exists ks, unclosed (chars "((") ks) -> main 3 (chars "((") = Some Undefined)
  /\ (~ (exists ks, unclosed (chars "((") ks) ->
      main 3 (chars "((") = Some (Printed Invalid))
  /\ ((exists ks, unclosed (chars "((") ks)
      \/ ~ (exists ks, unclosed (chars "((") ks)).
Proof. apply overlong_length; [simpl; lia | reflexivity]. Defined.

(** ** Characters that are not brackets *)

(** X4. With [length] within the string, the behaviour of the run is
    undefined exactly when one of the first [length] characters is not a
    bracket glyph and no closer before it is without a match: the run then
    reaches that character, and neither classifier returns on it. *)
Theorem undefined_exactly (length : Z) (brackets : list ascii) :
  length <= Z.of_nat (List.length brackets) ->
  main length brackets = Some Undefined
  <-> exists pre c post ks,
        firstn (Z.to_nat length) brackets = pre ++ c :: post
        /\ unclosed pre ks
        /\ bracket_glyph c = false.
Proof.
  intros Hle. rewrite (main_walk _ _ Hle). split.
  - intros H. injection H as H. apply answer_undefined in H.
    destruct (walk_undef_inv _ _ H) as (pre & c & post & stk & E & W & G).
    apply walk_continue_iff in W. destruct W as (ks & U & _).
    exists pre, c, post, ks. auto.
  - intros (pre & c & post & ks & -> & U & G). f_equal.
    apply answer_undefined.
    apply (walk_undef_intro pre post c [] (map code ks)); [|exact G].
    apply walk_continue_iff. exists ks. auto.
Qed.

Lemma undefined_exactly_witness :
  main 3 (chars "(a)") = Some Undefined
  <-> exists pre c post ks,
        firstn (Z.to_nat 3) (chars "(a)") = pre ++ c :: post
        /\ unclosed pre ks
        /\ bracket_glyph c = false.
Proof. apply undefined_exactly. simpl. lia. Defined.

(** X5. A closer that does not match the innermost open bracket before it
    decides the answer: the program prints Invalid whatever follows, be it
    other characters than brackets or a [length] beyond the end of the
    string. *)
Theorem unmatched_closer_decides (length : Z) (pre post : list ascii)
  (ks : list kind) (k : kind) :
  unclosed pre ks ->
  hd_error ks <> Some k ->
  Z.of_nat (List.length pre) < length ->
  main length (pre ++ closer k :: post) = Some (Printed Invalid).
Proof.
  intros U Hk Hlt. rewrite main_walk_terminated. unfold terminated.
  rewrite <- app_assoc, firstn_app, firstn_all2 by lia.
  replace (Z.to_nat length - List.length pre)%nat
    with (S (Z.to_nat length - List.length pre - 1)) by lia.
  rewrite <- app_comm_cons, firstn_cons, walk_app, (walk_unclosed pre ks U).
  rewrite app_nil_r. simpl. rewrite (on_bracket_unmatched ks k Hk).
  reflexivity.
Qed.

Lemma unmatched_closer_decides_witness :
  main 9 (chars "[(" ++ closer Curly :: chars "xyz") = Some (Printed Invalid).
Proof.
  apply (unmatched_closer_decides 9 (chars "[(") (chars "xyz")
           [Round; Square] Curly).
  - apply (unclosed_open (chars "[") [Square] Round []);
      [|apply balanced_nil].
    apply (unclosed_open [] [] Square []); [|apply balanced_nil].
    apply unclosed_none, balanced_nil.
  - discriminate.
  - simpl. lia.
Defined.

(** ** The classifiers on every character *)

(** X6. The two classifiers return on the same characters: each of them
    leaves without a [return] exactly on the characters that are not one of
    the six glyphs. *)
Theorem classifiers_same_domain (bracket : ascii) :
  (bracket_type bracket = None <-> bracket_glyph bracket = false)
  /\ (bracket_state bracket = None <-> bracket_glyph bracket = false).
Proof.
  destruct (bracket_glyph bracket) eqn:G.
  - destruct (bracket_glyph_inv bracket G) as (k & role & ->).
    destruct (classify_glyph k role) as [T R]. rewrite T, R.
    split; split; discriminate.
  - destruct (classifiers_fall_through bracket G) as [T R]. rewrite T, R.
    split; split; reflexivity.
Qed.

(** X7. Type and role together identify the glyph: two characters on which
    [bracket_type] returns the same type and [bracket_state] the same role
    are the same character, and the type returned is one of the three
    defined constants. *)
Theorem classifiers_determine_glyph (b1 b2 : ascii) (type : bracket_t)
  (state : state_t) :
  bracket_type b1 = Some type -> bracket_state b1 = Some state ->
  bracket_type b2 = Some type -> bracket_state b2 = Some state ->
  b1 = b2 /\ (type = CURLY \/ type = SQUARE \/ type = ROUND).
Proof.
  intros T1 S1 T2 S2.
  destruct (bracket_state_some _ _ S1) as [k1 ->].
  destruct (bracket_state_some _ _ S2) as [k2 ->].
  destruct (classify_glyph k1 state) as [E1 _].
  destruct (classify_glyph k2 state) as [E2 _].
  rewrite E1 in T1. rewrite E2 in T2.
  assert (k1 = k2) as -> by (apply code_inj; congruence).
  split; [reflexivity|].
  injection T2 as <-. destruct k2; simpl; auto.
Qed.

Lemma classifiers_determine_glyph_witness :
  "]" = "]" /\ (SQUARE = CURLY \/ SQUARE = SQUARE \/ SQUARE = ROUND).
Proof.
  apply (classifiers_determine_glyph "]" "]" SQUARE CLOSE); reflexivity.
Defined.

(** ** Putting strings together *)

(** X8. A stretch that the program finds Valid on its own can be inserted
    anywhere into a string, or removed from it, without changing what the
    program answers for the whole. *)
Theorem valid_stretch_is_neutral (s1 b s2 : list ascii) :
  main (Z.of_nat (List.length b)) b = Some (Printed Valid) ->
  main (Z.of_nat (List.length (s1 ++ b ++ s2))) (s1 ++ b ++ s2)
  = main (Z.of_nat (List.length (s1 ++ s2))) (s1 ++ s2).
Proof.
  intros V. apply main_valid_iff in V. destruct V as [_ B].
  rewrite Nat2Z.id, firstn_all in B.
  rewrite !main_walk by lia. rewrite !Nat2Z.id, !firstn_all.
  rewrite !walk_app.
  destruct (walk s1 []) as [stk| |]; try reflexivity.
  rewrite walk_app, (walk_balanced b B). reflexivity.
Qed.

Lemma valid_stretch_is_neutral_witness :
  main (Z.of_nat (List.length (chars "([" ++ chars "{}()" ++ chars "])")))
    (chars "([" ++ chars "{}()" ++ chars "])")
  = main (Z.of_nat (List.length (chars "([" ++ chars "])")))
      (chars "([" ++ chars "])").
Proof. apply valid_stretch_is_neutral. reflexivity. Defined.

(** X9. A string that the program finds Valid stays Valid when it is put
    between an opener and the closer of the same type, and becomes Invalid
    between an opener and a closer of different types. *)
Theorem wrapped_valid (s : list ascii) (k k' : kind) :
  main (Z.of_nat (List.length s)) s = Some (Printed Valid) ->
  (k = k' ->
   main (Z.of_nat (List.length s) + 2) (opener k :: s ++ [closer k'])
   = Some (Printed Valid))
  /\ (k <> k' ->
      main (Z.of_nat (List.length s) + 2) (opener k :: s ++ [closer k'])
      = Some (Printed Invalid)).
Proof.
  intros V. apply main_valid_iff in V. destruct V as [_ B].
  rewrite Nat2Z.id, firstn_all in B.
  assert (Z.of_nat (List.length s) + 2
          = Z.of_nat (List.length (opener k :: s ++ [closer k']))) as L
      by (simpl; rewrite length_app; simpl; lia).
  rewrite L, !main_walk by lia. rewrite Nat2Z.id, firstn_all.
  simpl. rewrite on_bracket_opener, walk_snoc, (walk_balanced s B).
  rewrite on_bracket_closer.
  destruct (Z.eqb_spec (code k') (code k)) as [E|N].
  - apply code_inj in E. subst k'. split; [reflexivity | congruence].
  - split; [intros ->; congruence | reflexivity].
Qed.

Lemma wrapped_valid_witness :
  main 6 (chars "[(){}]") = Some (Printed Valid)
  /\ main 6 (chars "[(){})") = Some (Printed Invalid).
Proof.
  split.
  - destruct (wrapped_valid (chars "(){}") Square Square) as [H _];
      [reflexivity|].
    exact (H eq_refl).
  - destruct (wrapped_valid (chars "(){}") Square Round) as [_ H];
      [reflexivity|].
    apply H. discriminate.
Defined.

(** ** What the stack and the counter hold *)

(** X10. At every loop test, for each type the stack holds as many entries
    of that type as the prefix read so far has openers of the type in excess
    of its closers, and the stack is never higher than the number of
    characters read. *)
Theorem stack_counts (length : Z) (brackets : list ascii) (n : nat)
  (index : Z) (open_brackets : stack) :
  state_after length brackets n = Running index open_brackets ->
  (forall k,
      (entries (code k) open_brackets
       + occurrences (closer k) (firstn (Z.to_nat index) brackets)
       = occurrences (opener k) (firstn (Z.to_nat index) brackets))%nat)
  /\ Z.of_nat (List.length open_brackets) <= index.
Proof.
  intros H. destruct (running_walk _ _ _ _ _ H) as [-> W].
  rewrite Nat2Z.id. split.
  - intros k. exact (walk_counts _ _ _ k W).
  - pose proof (walk_height _ _ _ W) as Hh.
    pose proof (firstn_le_length n brackets). simpl in Hh. lia.
Qed.

Lemma stack_counts_witness :
  (forall k,
      (entries (code k) [ROUND; ROUND]
       + occurrences (closer k) (firstn (Z.to_nat 4) (chars "(()("))
       = occurrences (opener k) (firstn (Z.to_nat 4) (chars "(()(")))%nat)
  /\ Z.of_nat (List.length [ROUND; ROUND]) <= 4.
Proof. apply (stack_counts 4 (chars "(()(") 4). reflexivity. Defined.

(** X11. On a run over bracket glyphs, with [length] within the string,
    Valid is printed only if the number of characters checked is even and
    every type has as many openers as closers among them. *)
Theorem valid_counts (length : Z) (brackets : list ascii) :
  length <= Z.of_nat (List.length brackets) ->
  forallb bracket_glyph (firstn (Z.to_nat length) brackets) = true ->
  main length brackets = Some (Printed Valid) ->
  Nat.even (Z.to_nat length) = true
  /\ forall k,
       occurrences (opener k) (firstn (Z.to_nat length) brackets)
       = occurrences (closer k) (firstn (Z.to_nat length) brackets).
Proof.
  intros _ _ V. apply main_valid_iff in V. destruct V as [Hle B]. split.
  - apply balanced_even in B. rewrite length_firstn in B.
    replace (Nat.min (Z.to_nat length) (List.length brackets))
      with (Z.to_nat length) in B by lia.
    exact B.
  - intros k. pose proof (walk_counts _ [] [] k (walk_balanced _ B [])) as C.
    simpl in C. lia.
Qed.

Lemma valid_counts_witness :
  Nat.even (Z.to_nat 6) = true
  /\ forall k,
       occurrences (opener k) (firstn (Z.to_nat 6) (chars "([]){}"))
       = occurrences (closer k) (firstn (Z.to_nat 6) (chars "([]){}")).
Proof.
  apply valid_counts; [simpl; lia | reflexivity | reflexivity].
Defined.

(** X12. Valid is printed only after every one of the first [length]
    characters has been examined, each once and in order. *)
Theorem valid_reads_everything (length : Z) (brackets : list ascii) :
  main length brackets = Some (Printed Valid) ->
  examined length brackets = map Z.of_nat (seq 0 (Z.to_nat length)).
Proof.
  intros V. unfold main in V.
  destruct (state_after length brackets (fuel length)) as [|out] eqn:E;
    [discriminate V|].
  injection V as ->.
  destruct (valid_from_loop_end _ _ _ E) as (m & index & R & Hge).
  destruct (running_index _ _ _ _ _ R) as [-> Hm].
  assert (m = Z.to_nat length) as -> by lia.
  unfold examined, fuel.
  rewrite examined_in_succ_r, (examined_running _ _ _ _ _ R), R. simpl.
  destruct (Z.ltb_spec (Z.of_nat (Z.to_nat length)) length); [lia|].
  apply app_nil_r.
Qed.

Lemma valid_reads_everything_witness :
  examined 4 (chars "()[]") = map Z.of_nat (seq 0 (Z.to_nat 4)).
Proof. apply valid_reads_everything. reflexivity. Defined.

(** X13. With [length] in the range of [long long], [index] stays between
    0 and [length] at every loop test, and the [index++] after a pass of
    the body does not overflow. *)
Theorem index_never_overflows (length : Z) (brackets : list ascii) (n : nat)
  (index : Z) (open_brackets : stack) :
  length <= ll_max ->
  state_after length brackets n = Running index open_brackets ->
  0 <= index <= Z.max 0 length
  /\ (index < length -> ll_min <= index + 1 <= ll_max).
Proof.
  intros Hmax H. destruct (running_index _ _ _ _ _ H) as [-> Hn].
  unfold ll_min, ll_max in *. lia.
Qed.

Lemma index_never_overflows_witness :
  0 <= 2 <= Z.max 0 ll_max /\ (2 < ll_max -> ll_min <= 2 + 1 <= ll_max).
Proof.
  apply (index_never_overflows ll_max (chars "((") 2 2 [ROUND; ROUND]).
  - lia.
  - unfold state_after. simpl. reflexivity.
Defined.
